(** * The books router (src/routes/books.js)

    A shallow embedding of the five Express handlers of the books router
    and of the lowdb/lodash calls they make on the shared store
    [req.app.db], followed by the properties of the CRUD contract. *)

From stdpp Require Import base option list gmap strings.

Open Scope string_scope.
Open Scope list_scope.
Open Scope stdpp_scope.

Set Warnings "-register-all".

(** ** JavaScript data *)

(** A JSON value, as [express.json()] hands it over in [req.body]. The
    handlers never compute with numbers, so an integer stands for a
    number literal; what matters is that a number is never [===] a
    string. *)
Inductive json : Type :=
  | JNull
  | JBool (b : bool)
  | JNum (n : Z)
  | JStr (s : string)
  | JArr (l : list json)
  | JObj (o : gmap string json).

(** A plain object: its own enumerable string-keyed properties. *)
Abbreviation object := (gmap string json).

(** The array stored under the key "books" of the lowdb state. *)
Abbreviation collection := (list object).

(** The values the handlers hold in variables and pass to [res.send]:
    [undefined], one book, an array of books, a caught exception. *)
Inductive jsvalue : Type :=
  | undefined
  | Obj (o : object)
  | Arr (l : collection)
  | Err (message : string).

(** [const idLength = 8;] *)
Definition idLength : nat := 8.

(** ** lodash primitives, as lowdb's chain runs them *)

Module Lodash.

(** [_.matches({ id: pid })]: the source has one property whose value is a
    string, so lodash compares [object.id === pid]. *)
Definition matches (pid : string) (o : object) : bool :=
  match o !! "id" with
  | Some (JStr s) => bool_decide (s = pid)
  | _ => false
  end.

(** [_.find(array, predicate)]: index and element of the first hit. The
    element is a reference into the array, hence the index. *)
Fixpoint find_from (p : object → bool) (index : nat) (array : collection)
  : option (nat * object) :=
  match array with
  | [] => None
  | value :: rest =>
      if p value then Some (index, value) else find_from p (S index) rest
  end.

Definition find (p : object → bool) (array : collection) : option (nat * object) :=
  find_from p 0 array.

(** [_.assign(object, source)]: every own property of [source] is written
    onto [object]; the other properties of [object] stay. *)
Definition assign (o source : object) : object := source ∪ o.

(** [_.remove(array, predicate)]: one pass over the array collecting the
    hits in [result]; the hits are then pulled out of the array. Returns
    [(result, array after the pull)]. *)
Fixpoint remove (p : object → bool) (array : collection) : collection * collection :=
  match array with
  | [] => ([], [])
  | value :: rest =>
      let '(result, kept) := remove p rest in
      if p value then (value :: result, kept) else (result, value :: kept)
  end.

End Lodash.

(** The lazy lodash wrappers the router builds on [req.app.db]. Nothing
    runs until [.value()], [.write()] or a serialisation forces them. *)
Inductive chain : Type :=
  | books_                                          (* db.get("books") *)
  | books_find (id : string)                        (* .find({ id }) *)
  | books_find_assign (id : string) (body : object) (* .find({ id }).assign(body) *)
  | books_push (newBook : object)                   (* .push(newBook) *)
  | books_remove (id : string).                     (* .remove({ id }) *)

(** Forcing a wrapper against the array: the value it yields and the array
    after the mutations it performs. [find] yields a reference into the
    array, so [assign] on it updates the array in place. *)
Definition force (c : chain) (books : collection) : jsvalue * collection :=
  match c with
  | books_ => (Arr books, books)
  | books_find id =>
      match Lodash.find (Lodash.matches id) books with
      | Some (_, book) => (Obj book, books)
      | None => (undefined, books)
      end
  | books_find_assign id body =>
      match Lodash.find (Lodash.matches id) books with
      | Some (i, book) =>
          let book' := Lodash.assign book body in
          (Obj book', <[i := book']> books)
      | None =>
          (* _.assign(undefined, body) fills a fresh object *)
          (Obj (Lodash.assign ∅ body), books)
      end
  | books_push newBook => (Arr (books ++ [newBook]), books ++ [newBook])
  | books_remove id =>
      let '(result, kept) := Lodash.remove (Lodash.matches id) books in
      (Arr result, kept)
  end.

(** ** The response object and the handler monad *)

(** What a handler passes to [res.send]: a value, or a wrapper it never
    forced. *)
Inductive payload : Type :=
  | Value (v : jsvalue)
  | Wrapper (c : chain).

(** The calls a handler makes on [res], in order. [Send] also records the
    body Express serialises at that moment. *)
Inductive res_call : Type :=
  | Send (arg : payload) (body : jsvalue)
  | SendStatus (code : Z)
  | Status (code : Z).

(** What the handler does not control: the token [nanoid] returns and
    whether the adapter's file write throws. *)
Record env : Type := Env {
  nanoid : nat → string;
  adapter_write : collection → option string
}.

(** [req.app.db] and [res]. *)
Record server : Type := Server {
  books : collection;
  res : list res_call
}.

Inductive outcome (A : Type) : Type :=
  | Returns (a : A)
  | Throws (e : string).
Arguments Returns {A} a.
Arguments Throws {A} e.

(** State and exceptions: a thrown exception keeps the mutations made
    before it. *)
Definition M (A : Type) : Type := env → server → outcome A * server.

#[export] Instance M_ret : MRet M := λ A a _ s, (Returns a, s).
#[export] Instance M_bind : MBind M := λ A B f m ρ s,
  match m ρ s with
  | (Returns a, s') => f a ρ s'
  | (Throws e, s') => (Throws e, s')
  end.

(** [try { body } catch (e) { handler }] *)
Definition try_catch {A} (body : M A) (handler : string → M A) : M A := λ ρ s,
  match body ρ s with
  | (Returns a, s') => (Returns a, s')
  | (Throws e, s') => handler e ρ s'
  end.

Definition call_nanoid (size : nat) : M string := λ ρ s, (Returns (nanoid ρ size), s).

(** [wrapper.value()] *)
Definition value (c : chain) : M jsvalue := λ _ s,
  let '(v, books') := force c (books s) in
  (Returns v, Server books' (res s)).

(** [wrapper.write()]: lowdb forces the wrapper, then hands the whole
    state to the adapter, which may throw. *)
Definition write (c : chain) : M jsvalue := λ ρ s,
  let '(v, books') := force c (books s) in
  let s' := Server books' (res s) in
  match adapter_write ρ books' with
  | None => (Returns v, s')
  | Some e => (Throws e, s')
  end.

(** The body Express puts on the wire for [res.send(arg)]:
    [JSON.stringify] calls the wrapper's [toJSON], which lodash aliases
    to [value]. *)
Definition toJSON (arg : payload) (books : collection) : jsvalue :=
  match arg with
  | Value v => v
  | Wrapper c => fst (force c books)
  end.

Definition res_send (arg : payload) : M unit := λ _ s,
  (Returns (), Server (books s) (res s ++ [Send arg (toJSON arg (books s))])).

Definition res_sendStatus (code : Z) : M unit := λ _ s,
  (Returns (), Server (books s) (res s ++ [SendStatus code])).

Definition res_status (code : Z) : M unit := λ _ s,
  (Returns (), Server (books s) (res s ++ [Status code])).

(** [!book] *)
Definition falsy (v : jsvalue) : bool :=
  match v with undefined => true | _ => false end.

(** ** The five handlers *)

Module Router.

(** [router.get("/")] *)
Definition get_all : M unit :=
  let books := books_ in
  res_send (Wrapper books).

(** [router.get("/:id")] *)
Definition get_by_id (id : string) : M unit :=
  book ← value (books_find id);
  (if falsy book then res_sendStatus 404 else mret ());;
  res_send (Value book).

(** [router.post("/")] *)
Definition post (body : object) : M unit :=
  try_catch (
    token ← call_nanoid idLength;
    (* { id: nanoid(idLength), ...req.body } *)
    let newBook : object := body ∪ {[ "id" := JStr token ]} in
    write (books_push newBook);;
    res_send (Value (Obj newBook))
  ) (λ e,
    res_status 500;;
    res_send (Value (Err e))
  ).

(** [router.put("/:id")] *)
Definition put (id : string) (body : object) : M unit :=
  try_catch (
    write (books_find_assign id body);;
    res_send (Wrapper (books_find id))
  ) (λ e,
    res_status 500;;
    res_send (Value (Err e))
  ).

(** [router.delete("/:id")] *)
Definition delete (id : string) : M unit :=
  try_catch (
    write (books_remove id);;
    res_sendStatus 200
  ) (λ e,
    res_status 500;;
    res_send (Value (Err e))
  ).

End Router.

(** One request to the router. *)
Inductive request : Type :=
  | List
  | Get (id : string)
  | Create (body : object)
  | Update (id : string) (body : object)
  | Delete (id : string).

Definition route (r : request) : M unit :=
  match r with
  | List => Router.get_all
  | Get id => Router.get_by_id id
  | Create body => Router.post body
  | Update id body => Router.put id body
  | Delete id => Router.delete id
  end.

(** Serving a request on a fresh [res]: the collection afterwards and the
    calls made on [res]. *)
Definition serve (ρ : env) (r : request) (bs : collection)
  : collection * list res_call :=
  let s := snd (route r ρ (Server bs [])) in (books s, res s).

Definition stored (ρ : env) (r : request) (bs : collection) : collection :=
  fst (serve ρ r bs).

Definition response (ρ : env) (r : request) (bs : collection) : list res_call :=
  snd (serve ρ r bs).

(** ** Vocabulary of the contract *)

(** The record carries the path id. *)
Definition has_id (id : string) (o : object) : Prop := o !! "id" = Some (JStr id).

(** The ids of the collection, in storage order. *)
Definition ids (bs : collection) : list (option json) := (λ o : object, o !! "id") <$> bs.

Definition unique_ids (bs : collection) : Prop := NoDup (ids bs).

(** The request writes no id that is already in use: an Update whose
    body has no id field or repeats the path id, a Create whose body has
    no id field and whose token is new to the collection. *)
Definition id_untouched (ρ : env) (r : request) (bs : collection) : Prop :=
  match r with
  | Create body => body !! "id" = None ∧ Some (JStr (nanoid ρ idLength)) ∉ ids bs
  | Update id body => body !! "id" = None ∨ body !! "id" = Some (JStr id)
  | _ => True
  end.

(** The request ended in the catch branch. *)
Definition failed (calls : list res_call) : bool :=
  existsb (λ c, match c with Status 500 => true | _ => false end) calls.

(** The number of books a List request returns. *)
Definition listed (ρ : env) (bs : collection) : option nat :=
  match response ρ List bs with
  | [Send _ (Arr l)] => Some (length l)
  | _ => None
  end.

(** Removing the first record with the id and nothing else: the reading
    of Delete that the contract gives. *)
Fixpoint remove_first (id : string) (bs : collection) : collection :=
  match bs with
  | [] => []
  | o :: rest => if Lodash.matches id o then rest else o :: remove_first id rest
  end.

(** The request goes through [.write()]. *)
Definition is_write (r : request) : bool :=
  match r with
  | Create _ | Update _ _ | Delete _ => true
  | List | Get _ => false
  end.

(** The calls that end a response: [res.send] and [res.sendStatus]
    ([res.status] only sets the code). *)
Definition terminal (calls : list res_call) : nat :=
  length (List.filter (λ c, match c with Status _ => false | _ => true end) calls).

(** A run of requests, one after the other on the shared store, each
    with its own token and adapter outcome. *)
Definition session (rs : list (env * request)) (bs : collection) : collection :=
  foldl (λ bs '(ρ, r), stored ρ r bs) bs rs.

(** ** Sample data *)

Definition quiet : env := Env (λ _, "V1StGXR8") (λ _, None).

Definition dune : object := {[ "id" := JStr "a"; "title" := JStr "Dune"; "author" := JStr "Herbert" ]}.
Definition emma : object := {[ "id" := JStr "b"; "title" := JStr "Emma"; "author" := JStr "Austen" ]}.
Definition dune2 : object := {[ "id" := JStr "a"; "title" := JStr "Dune Messiah" ]}.

(** An environment whose adapter cannot write the file. *)
Definition broken : env := Env (λ _, "V1StGXR8") (λ _, Some "EACCES").

(** A record whose id is a number. *)
Definition numbered : object := {[ "id" := JNum 7; "title" := JStr "Ulysses" ]}.

(** [has_id] is what [_.matches] tests, so it is decidable. *)
#[export] Instance has_id_dec id o : Decision (has_id id o).
Proof.
  unfold has_id. destruct (o !! "id") as [[| | |s| |]|]; try (right; congruence).
  destruct (decide (s = id)) as [->|]; [left; reflexivity | right; congruence].
Defined.

(** Case analysis on [o ∈ [b1; ...; bn]], each case closed by evaluation. *)
Ltac each_book H :=
  repeat (apply elem_of_cons in H as [->|H]; [by vm_compute |]);
  by apply elem_of_nil in H.

(** ** Facts about the lodash primitives *)

Section lodash_facts.
Implicit Types (p : object → bool) (l bs : collection) (o : object).

Lemma matches_has_id id o : Lodash.matches id o = true ↔ has_id id o.
Proof.
  unfold Lodash.matches, has_id.
  destruct (o !! "id") as [[| | |s| |]|]; try (split; [discriminate | congruence]).
  rewrite bool_decide_eq_true. split; congruence.
Qed.

Lemma matches_false id o : Lodash.matches id o = false ↔ ¬ has_id id o.
Proof. rewrite <- matches_has_id. destruct (Lodash.matches id o); naive_solver. Qed.

Lemma find_from_miss p k l :
  Lodash.find_from p k l = None ↔ Forall (λ o, p o = false) l.
Proof.
  revert k. induction l as [|o l IH]; intros k; simpl.
  - split; [constructor | reflexivity].
  - destruct (p o) eqn:Hp.
    + split; [discriminate | inversion 1; congruence].
    + rewrite IH. split; [by constructor | by inversion 1].
Qed.

Lemma find_from_hit p k l i o :
  Lodash.find_from p k l = Some (i, o) ↔
  ∃ j, i = k + j ∧ l !! j = Some o ∧ p o = true ∧
       ∀ j' o', j' < j → l !! j' = Some o' → p o' = false.
Proof.
  revert k. induction l as [|x l IH]; intros k; simpl.
  - split; [discriminate | intros (j & _ & Hj & _); discriminate].
  - destruct (p x) eqn:Hp.
    + split.
      * intros [= <- <-]. exists 0. repeat split; [lia | done | lia].
      * intros (j & -> & Hj & Ho & Hfirst). destruct j as [|j].
        { simpl in Hj. injection Hj as ->. do 2 f_equal. lia. }
        specialize (Hfirst 0 x). simpl in Hfirst.
        rewrite Hfirst in Hp; [discriminate | lia | done].
    + rewrite IH. split.
      * intros (j & -> & Hj & Ho & Hfirst). exists (S j).
        repeat split; [lia | done | done |].
        intros [|j'] o' Hlt Hj'; simpl in Hj'.
        { by injection Hj' as <-. }
        apply (Hfirst j'); [lia | done].
      * intros (j & -> & Hj & Ho & Hfirst). destruct j as [|j].
        { simpl in Hj. injection Hj as ->. congruence. }
        exists j. repeat split; [lia | done | done |].
        intros j' o' Hlt Hj'. apply (Hfirst (S j')); [lia | done].
Qed.

Lemma find_miss id bs :
  Lodash.find (Lodash.matches id) bs = None ↔ ∀ o, o ∈ bs → ¬ has_id id o.
Proof.
  unfold Lodash.find. rewrite find_from_miss, Forall_forall.
  by setoid_rewrite matches_false.
Qed.

(** The first record with the id is the one [find] yields. *)
Lemma find_first id bs i o :
  bs !! i = Some o → has_id id o →
  (∀ j o', j < i → bs !! j = Some o' → ¬ has_id id o') →
  Lodash.find (Lodash.matches id) bs = Some (i, o).
Proof.
  intros Hi Ho Hfirst. apply find_from_hit. exists i.
  repeat split; [done | by apply matches_has_id |].
  intros j o' Hj Ho'. apply matches_false. eauto.
Qed.

Lemma find_inv id bs i o :
  Lodash.find (Lodash.matches id) bs = Some (i, o) →
  bs !! i = Some o ∧ has_id id o.
Proof.
  intros (j & -> & Hj & Ho & _)%find_from_hit.
  split; [done | by apply matches_has_id].
Qed.

Lemma remove_kept id bs :
  snd (Lodash.remove (Lodash.matches id) bs) = filter (λ o, ¬ has_id id o) bs.
Proof.
  induction bs as [|o bs IH]; [done |]. simpl.
  destruct (Lodash.remove _ bs) as [result kept]. simpl in IH. subst kept.
  destruct (Lodash.matches id o) eqn:Hm; simpl.
  - apply matches_has_id in Hm. rewrite filter_cons_False; [done | tauto].
  - apply matches_false in Hm. by rewrite filter_cons_True.
Qed.

Lemma filter_none id bs :
  (∀ o, o ∈ bs → ¬ has_id id o) → filter (λ o, ¬ has_id id o) bs = bs.
Proof.
  induction bs as [|o bs IH]; intros Hall; [done |].
  rewrite filter_cons_True by (apply Hall; left).
  f_equal. apply IH. intros o' Ho'. apply Hall. by right.
Qed.
End lodash_facts.

(** ** What each request does, in closed form *)

Section serve_equations.
Context (ρ : env) (bs : collection).

Lemma serve_List : serve ρ List bs = (bs, [Send (Wrapper books_) (Arr bs)]).
Proof. reflexivity. Qed.

Lemma serve_Get id :
  serve ρ (Get id) bs =
    (bs, match Lodash.find (Lodash.matches id) bs with
         | Some (_, book) => [Send (Value (Obj book)) (Obj book)]
         | None => [SendStatus 404; Send (Value undefined) undefined]
         end).
Proof.
  unfold serve, route, Router.get_by_id, value, mbind, M_bind; simpl.
  by destruct (Lodash.find _ bs) as [[i book]|].
Qed.

Lemma serve_Create body :
  let newBook : object := body ∪ {[ "id" := JStr (nanoid ρ idLength) ]} in
  serve ρ (Create body) bs =
    (bs ++ [newBook],
     match adapter_write ρ (bs ++ [newBook]) with
     | None => [Send (Value (Obj newBook)) (Obj newBook)]
     | Some e => [Status 500; Send (Value (Err e)) (Err e)]
     end).
Proof.
  unfold serve, route, Router.post, try_catch, write, mbind, M_bind; simpl.
  by destruct (adapter_write ρ _).
Qed.

Lemma serve_Update id body :
  let bs' := snd (force (books_find_assign id body) bs) in
  serve ρ (Update id body) bs =
    (bs',
     match adapter_write ρ bs' with
     | None => [Send (Wrapper (books_find id)) (fst (force (books_find id) bs'))]
     | Some e => [Status 500; Send (Value (Err e)) (Err e)]
     end).
Proof.
  unfold serve, route, Router.put, try_catch, write, mbind, M_bind; simpl.
  destruct (Lodash.find _ bs) as [[i book]|]; simpl;
    by destruct (adapter_write ρ _).
Qed.

Lemma serve_Delete id :
  let bs' := filter (λ o, ¬ has_id id o) bs in
  serve ρ (Delete id) bs =
    (bs',
     match adapter_write ρ bs' with
     | None => [SendStatus 200]
     | Some e => [Status 500; Send (Value (Err e)) (Err e)]
     end).
Proof.
  simpl. rewrite <- remove_kept.
  unfold serve, route, Router.delete, try_catch, write, mbind, M_bind; simpl.
  destruct (Lodash.remove _ bs) as [result kept]; simpl.
  by destruct (adapter_write ρ _).
Qed.
End serve_equations.

(** ** The contract's example scenario *)

(** POST a book, GET it, PUT a new author, DELETE it, GET it again. *)
Example scenario :
  let book : object := {[ "title" := JStr "Dune"; "author" := JStr "Herbert" ]} in
  let created : object := <[ "id" := JStr "V1StGXR8" ]> book in
  let updated : object := <[ "author" := JStr "Frank Herbert" ]> created in
  serve quiet (Create book) [] = ([created], [Send (Value (Obj created)) (Obj created)]) ∧
  serve quiet (Get "V1StGXR8") [created]
    = ([created], [Send (Value (Obj created)) (Obj created)]) ∧
  serve quiet (Update "V1StGXR8" {[ "author" := JStr "Frank Herbert" ]}) [created]
    = ([updated], [Send (Wrapper (books_find "V1StGXR8")) (Obj updated)]) ∧
  serve quiet (Delete "V1StGXR8") [updated] = ([], [SendStatus 200]) ∧
  response quiet (Get "V1StGXR8") [] = [SendStatus 404; Send (Value undefined) undefined].
Proof. repeat split; by vm_compute. Qed.

(** ** Create *)

(** When the body carries no id, the stored record has the generated
    token as its id and every body field as submitted. *)
Lemma create_generated_id ρ body bs :
  body !! "id" = None →
  ∃ newBook, stored ρ (Create body) bs = bs ++ [newBook] ∧
    has_id (nanoid ρ idLength) newBook ∧
    ∀ k v, body !! k = Some v → newBook !! k = Some v.
Proof.
  intros Hid. unfold stored. rewrite serve_Create. simpl. eexists. split; [done |].
  split.
  - unfold has_id. rewrite lookup_union_r by done. apply lookup_singleton_eq.
  - intros k v Hk. by apply lookup_union_Some_l.
Qed.

(** A body that carries an id gives the stored record that id, whatever
    token was generated. *)
Lemma create_body_id_wins ρ body bs v :
  body !! "id" = Some v →
  ∃ newBook, stored ρ (Create body) bs = bs ++ [newBook] ∧ newBook !! "id" = Some v.
Proof.
  intros Hid. unfold stored. rewrite serve_Create. simpl. eexists. split; [done |].
  by apply lookup_union_Some_l.
Qed.

(** C1: Create is meant to store and return a record whose id is the
    generated token even when the body carries an id. On the body
    [{id: "mine", title: "Dune"}] with [nanoid] returning "V1StGXR8", the
    record stored and returned has the id "mine": the body's fields are
    spread after the generated id and overwrite it. *)
Theorem create_id_taken_from_body :
  let body : object := {[ "id" := JStr "mine"; "title" := JStr "Dune" ]} in
  nanoid quiet idLength = "V1StGXR8" ∧
  serve quiet (Create body) [] = ([body], [Send (Value (Obj body)) (Obj body)]) ∧
  has_id "mine" body ∧ ¬ has_id "V1StGXR8" body.
Proof.
  simpl. split; [reflexivity |]. split; [by vm_compute |].
  split; [by vm_compute |]. unfold has_id. by vm_compute.
Qed.

(** ** Get by id *)

Lemma get_miss ρ id bs :
  (∀ o, o ∈ bs → ¬ has_id id o) →
  response ρ (Get id) bs = [SendStatus 404; Send (Value undefined) undefined].
Proof.
  intros Hmiss%find_miss. unfold response. by rewrite serve_Get, Hmiss.
Qed.

(** C4: a Get on an id that matches no record is meant to send one
    response, 404 with an empty body. On the collection holding only the
    book "a" and the path id "zz" the handler calls [res.sendStatus(404)]
    and then, since it does not return, [res.send(undefined)] as well. *)
Theorem get_miss_sends_twice :
  response quiet (Get "zz") [dune] = [SendStatus 404; Send (Value undefined) undefined] ∧
  length (response quiet (Get "zz") [dune]) = 2.
Proof. split; by vm_compute. Qed.

(** C10: List and Get by id leave the collection as it was. *)
Theorem reads_keep_collection ρ bs :
  stored ρ List bs = bs ∧ ∀ id, stored ρ (Get id) bs = bs.
Proof.
  split; [reflexivity |]. intros id. unfold stored. by rewrite serve_Get.
Qed.

(** ** Update *)

(** C5: Update on an existing id leaves, at the place of the first record
    with that id, the shallow merge of that record with the body: every
    field of the body has the body's value, every other field keeps its
    prior value, and no other record changes. *)
Theorem update_stores_shallow_merge ρ id body bs i book :
  bs !! i = Some book →
  has_id id book →
  (∀ j o, j < i → bs !! j = Some o → ¬ has_id id o) →
  ∃ book', stored ρ (Update id body) bs !! i = Some book' ∧
    (∀ k v, body !! k = Some v → book' !! k = Some v) ∧
    (∀ k, body !! k = None → book' !! k = book !! k) ∧
    (∀ j, j ≠ i → stored ρ (Update id body) bs !! j = bs !! j) ∧
    length (stored ρ (Update id body) bs) = length bs.
Proof.
  intros Hi Hid Hfirst. unfold stored. rewrite serve_Update. simpl.
  rewrite (find_first id bs i book) by done. simpl.
  exists (Lodash.assign book body). repeat split.
  - apply list_lookup_insert_eq. by eapply lookup_lt_Some.
  - intros k v Hk. by apply lookup_union_Some_l.
  - intros k Hk. unfold Lodash.assign. by rewrite lookup_union_r.
  - intros j Hj. by apply list_lookup_insert_ne.
  - apply length_insert.
Qed.

Lemma update_stores_shallow_merge_witness :
  ∃ book', stored quiet (Update "a" {[ "author" := JStr "Frank Herbert" ]}) [emma; dune] !! 1
             = Some book' ∧
    book' !! "author" = Some (JStr "Frank Herbert") ∧
    book' !! "title" = Some (JStr "Dune").
Proof.
  destruct (update_stores_shallow_merge quiet "a" {[ "author" := JStr "Frank Herbert" ]}
              [emma; dune] 1 dune) as (book' & Hat & Hbody & Hrest & _).
  - reflexivity.
  - reflexivity.
  - intros [|j] o Hj Ho; [| lia]. injection Ho as <-. by vm_compute.
  - exists book'. split; [exact Hat |]. split.
    + apply Hbody. reflexivity.
    + rewrite Hrest by reflexivity. reflexivity.
Defined.

(** C6: Update on an id that matches no record leaves the collection as
    it was, and no 404 is sent. *)
Theorem update_miss_is_noop ρ id body bs :
  (∀ o, o ∈ bs → ¬ has_id id o) →
  stored ρ (Update id body) bs = bs ∧
  (SendStatus 404 ∉ response ρ (Update id body) bs) ∧
  (Status 404 ∉ response ρ (Update id body) bs).
Proof.
  intros Hmiss%find_miss. unfold stored, response. rewrite serve_Update. simpl.
  rewrite Hmiss. simpl. split; [done |].
  destruct (adapter_write ρ bs); split; intros Hin;
    repeat (apply elem_of_cons in Hin as [Hin|Hin]; [discriminate |]);
    by apply elem_of_nil in Hin.
Qed.

Lemma update_miss_is_noop_witness :
  stored quiet (Update "zz" {[ "title" := JStr "Persuasion" ]}) [dune; emma] = [dune; emma] ∧
  (SendStatus 404 ∉ response quiet (Update "zz" {[ "title" := JStr "Persuasion" ]}) [dune; emma]) ∧
  (Status 404 ∉ response quiet (Update "zz" {[ "title" := JStr "Persuasion" ]}) [dune; emma]).
Proof.
  apply (update_miss_is_noop quiet "zz" {[ "title" := JStr "Persuasion" ]} [dune; emma]).
  intros o Ho. each_book Ho.
Defined.

(** When the body leaves the id alone, the wrapper sent by Update
    serialises to the merged record. *)
Lemma update_response_when_id_kept ρ id body bs i book :
  Lodash.find (Lodash.matches id) bs = Some (i, book) →
  has_id id (Lodash.assign book body) →
  adapter_write ρ (<[i := Lodash.assign book body]> bs) = None →
  response ρ (Update id body) bs =
    [Send (Wrapper (books_find id)) (Obj (Lodash.assign book body))].
Proof.
  intros Hfind Hkept Hwrite. unfold response. rewrite serve_Update. simpl.
  rewrite Hfind. simpl. rewrite Hwrite.
  apply find_from_hit in Hfind as (j & -> & Hj & Hp & Hfirst). simpl in *.
  rewrite (find_first id _ j (Lodash.assign book body)); [done | | done |].
  - apply list_lookup_insert_eq. by eapply lookup_lt_Some.
  - intros j' o' Hlt Ho'. rewrite list_lookup_insert_ne in Ho' by lia.
    apply matches_false. eauto.
Qed.

(** C2: Update on an existing id is meant to answer with the merged
    record. On the collection holding only the book "a" and the body
    [{id: "b"}] the record is merged and stored under the id "b", while
    the handler sends the wrapper of a fresh lookup of "a", never forced,
    which serialises to nothing. *)
Theorem update_response_misses_merged_book :
  serve quiet (Update "a" {[ "id" := JStr "b" ]}) [dune] =
    ([<[ "id" := JStr "b" ]> dune], [Send (Wrapper (books_find "a")) undefined]).
Proof. by vm_compute. Qed.

(** ** Delete *)

(** C7: Delete on an id that matches no record leaves the collection as
    it was and, the adapter's write not throwing, answers with
    [sendStatus(200)] and nothing else. *)
Theorem delete_miss_is_silent ρ id bs :
  (∀ o, o ∈ bs → ¬ has_id id o) →
  stored ρ (Delete id) bs = bs ∧
  (adapter_write ρ bs = None → response ρ (Delete id) bs = [SendStatus 200]).
Proof.
  intros Hmiss. unfold stored, response. rewrite serve_Delete. simpl.
  rewrite filter_none by done. split; [done |]. by intros ->.
Qed.

Lemma delete_miss_is_silent_witness :
  stored quiet (Delete "zz") [dune; emma] = [dune; emma] ∧
  response quiet (Delete "zz") [dune; emma] = [SendStatus 200].
Proof.
  destruct (delete_miss_is_silent quiet "zz" [dune; emma]) as [Hkeep Hres].
  - intros o Ho. each_book Ho.
  - split; [exact Hkeep | apply Hres; reflexivity].
Defined.

(** C8, as the contract words it, fails: two Creates whose bodies carry
    the id "a" leave two records with that id, and Delete "a" then
    removes both, where removing the first match would keep the second. *)
Lemma delete_removes_later_duplicates :
  let bs := stored quiet (Create dune2) (stored quiet (Create dune) []) in
  bs = [dune; dune2] ∧
  stored quiet (Delete "a") bs = [] ∧
  remove_first "a" bs = [dune2] ∧
  stored quiet (Delete "a") bs ≠ remove_first "a" bs.
Proof.
  simpl. split; [by vm_compute |]. split; [by vm_compute |].
  split; [by vm_compute |]. by vm_compute.
Qed.

(** C8, amended: Delete removes every record whose id matches the path
    id; the records with another id, or none, remain in their order. *)
Theorem delete_removes_every_match ρ id bs :
  stored ρ (Delete id) bs = filter (λ o, ¬ has_id id o) bs.
Proof. unfold stored. by rewrite serve_Delete. Qed.

(** Where at most one record has the id, removing every match and
    removing the first one agree. *)
Lemma remove_first_when_unique id bs :
  unique_ids bs → filter (λ o, ¬ has_id id o) bs = remove_first id bs.
Proof.
  unfold unique_ids, ids. induction bs as [|o bs IH]; [done |].
  rewrite fmap_cons, NoDup_cons. intros [Hfresh Hnodup]. simpl.
  destruct (Lodash.matches id o) eqn:Hm.
  - apply matches_has_id in Hm. rewrite filter_cons_False by tauto.
    apply filter_none. intros o' Ho' Hid. apply Hfresh.
    apply list_elem_of_fmap. exists o'. split; [| done].
    unfold has_id in *. congruence.
  - apply matches_false in Hm. rewrite filter_cons_True by done.
    f_equal. by apply IH.
Qed.

(** ** Counting *)

Lemma listed_length ρ bs : listed ρ bs = Some (length bs).
Proof. reflexivity. Qed.

(** C9: after a Create that did not fail, List returns one book more
    than before; after a Delete that did not fail, of an id that exactly
    one record has, List returns one book fewer. *)
Theorem count_after_create_and_delete ρ ρ' bs :
  (∀ body, failed (response ρ (Create body) bs) = false →
     ∃ n, listed ρ' bs = Some n ∧
          listed ρ' (stored ρ (Create body) bs) = Some (S n)) ∧
  (∀ id before book after,
     bs = before ++ book :: after →
     has_id id book →
     (∀ o, o ∈ before ++ after → ¬ has_id id o) →
     failed (response ρ (Delete id) bs) = false →
     ∃ n, listed ρ' bs = Some (S n) ∧
          listed ρ' (stored ρ (Delete id) bs) = Some n).
Proof.
  split.
  - intros body _. exists (length bs). rewrite !listed_length.
    split; [done |]. unfold stored. rewrite serve_Create. simpl.
    rewrite length_app. simpl. f_equal. lia.
  - intros id before book after -> Hid Hrest _.
    exists (length (before ++ after)). rewrite !listed_length.
    split; [rewrite !length_app; simpl; f_equal; lia |].
    unfold stored. rewrite serve_Delete. simpl.
    rewrite filter_app, filter_cons_False by tauto.
    rewrite <- filter_app, filter_none by done. done.
Qed.

Lemma count_after_create_and_delete_witness :
  listed quiet [dune; emma] = Some 2 ∧
  listed quiet (stored quiet (Create {[ "title" := JStr "Persuasion" ]}) [dune; emma]) = Some 3 ∧
  listed quiet (stored quiet (Delete "a") [dune; emma]) = Some 1.
Proof.
  destruct (count_after_create_and_delete quiet quiet [dune; emma]) as [Hcreate Hdelete].
  destruct (Hcreate {[ "title" := JStr "Persuasion" ]}) as (n & Hn & Hmore);
    [reflexivity |].
  destruct (Hdelete "a" [] dune [emma]) as (m & Hm & Hfewer).
  - reflexivity.
  - reflexivity.
  - intros o Ho. each_book Ho.
  - reflexivity.
  - injection Hn as <-. injection Hm as <-. by repeat split.
Defined.

(** ** The id invariant *)

(** With the ids "a" and "b" in the collection, an Update of "a" whose
    body is [{id: "b"}] changes the id of the first record to "b" and
    leaves two records with the same id. *)
Lemma update_changes_id :
  ids [dune; emma] = [Some (JStr "a"); Some (JStr "b")] ∧
  unique_ids [dune; emma] ∧
  ids (stored quiet (Update "a" {[ "id" := JStr "b" ]}) [dune; emma])
    = [Some (JStr "b"); Some (JStr "b")] ∧
  ¬ unique_ids (stored quiet (Update "a" {[ "id" := JStr "b" ]}) [dune; emma]).
Proof.
  assert (ids [dune; emma] = [Some (JStr "a"); Some (JStr "b")]) as Hbefore
    by (by vm_compute).
  assert (ids (stored quiet (Update "a" {[ "id" := JStr "b" ]}) [dune; emma])
          = [Some (JStr "b"); Some (JStr "b")]) as Hafter by (by vm_compute).
  unfold unique_ids. rewrite Hbefore, Hafter. repeat split.
  - apply NoDup_cons. split; [| apply NoDup_singleton].
    intros [=]%list_elem_of_singleton.
  - intros [Hin _]%NoDup_cons. apply Hin. by left.
Qed.

(** Nothing compares the token with the collection: a Create whose body
    has no id field, with a token that a record already has as its id,
    leaves two records with that id. *)
Lemma create_repeats_token :
  let first := stored quiet (Create {[ "title" := JStr "Dune" ]}) [] in
  ({[ "title" := JStr "Emma" ]} : object) !! "id" = None ∧
  ids first = [Some (JStr "V1StGXR8")] ∧
  unique_ids first ∧
  ids (stored quiet (Create {[ "title" := JStr "Emma" ]}) first)
    = [Some (JStr "V1StGXR8"); Some (JStr "V1StGXR8")] ∧
  ¬ unique_ids (stored quiet (Create {[ "title" := JStr "Emma" ]}) first).
Proof.
  simpl.
  assert (ids (stored quiet (Create {[ "title" := JStr "Dune" ]}) [])
          = [Some (JStr "V1StGXR8")]) as Hbefore by (by vm_compute).
  assert (ids (stored quiet (Create {[ "title" := JStr "Emma" ]})
                 (stored quiet (Create {[ "title" := JStr "Dune" ]}) []))
          = [Some (JStr "V1StGXR8"); Some (JStr "V1StGXR8")]) as Hafter
    by (by vm_compute).
  unfold unique_ids. rewrite Hbefore, Hafter. repeat split.
  - apply NoDup_singleton.
  - intros [Hin _]%NoDup_cons. apply Hin. by left.
Qed.

(** C3, as the contract words it, fails, in two ways. An Update whose
    body is [{id: "b"}] changes the id of the record "a" and leaves two
    records with the id "b". A Create whose body has no id field, with a
    token that a record already has, leaves two records with that id. *)
Lemma id_invariant_broken :
  (unique_ids [dune; emma] ∧
   ids (stored quiet (Update "a" {[ "id" := JStr "b" ]}) [dune; emma]) ≠ ids [dune; emma] ∧
   ¬ unique_ids (stored quiet (Update "a" {[ "id" := JStr "b" ]}) [dune; emma])) ∧
  (unique_ids (stored quiet (Create {[ "title" := JStr "Dune" ]}) []) ∧
   ¬ unique_ids (stored quiet (Create {[ "title" := JStr "Emma" ]})
                   (stored quiet (Create {[ "title" := JStr "Dune" ]}) []))).
Proof.
  destruct update_changes_id as (Hbefore & Huniq & Hafter & Hdup).
  destruct create_repeats_token as (_ & _ & Huniq' & _ & Hdup').
  split; [| done]. split; [done |]. split; [| done].
  rewrite Hbefore, Hafter. discriminate.
Qed.

(** An Update whose body has no id field, or repeats the path id, leaves
    the id of every record as it was, in every collection. *)
Lemma update_keeps_ids ρ id body bs :
  body !! "id" = None ∨ body !! "id" = Some (JStr id) →
  ids (stored ρ (Update id body) bs) = ids bs.
Proof.
  intros Hbody. unfold stored. rewrite serve_Update. simpl.
  destruct (Lodash.find _ bs) as [[i book]|] eqn:Hfind; [| done]. simpl.
  apply find_inv in Hfind as [Hi Hid]. unfold ids.
  rewrite list_fmap_insert. apply list_insert_id.
  rewrite list_lookup_fmap, Hi. simpl. f_equal.
  unfold Lodash.assign, has_id in *. destruct Hbody as [Hnone|Hsame].
  - by rewrite lookup_union_r.
  - rewrite Hid. symmetry. by apply lookup_union_Some_l.
Qed.

(** C3, amended. In every collection: List and Get leave the collection
    as it was; Delete leaves the records that stay as they were and in
    their order; a Create appends one record after the unchanged
    collection, and when its body has no id field that record's id is
    the token; an Update whose body has no id field, or repeats the path
    id, changes no record's id. Ids that are unique stay unique under
    List, Get, Delete, such an Update, and a Create whose body has no id
    field and whose token is not yet an id of the collection. *)
Theorem id_invariant_preserved ρ r bs :
  match r with
  | List => stored ρ List bs = bs
  | Get id => stored ρ (Get id) bs = bs
  | Create body =>
      ∃ newBook, stored ρ (Create body) bs = bs ++ [newBook] ∧
        (body !! "id" = None → has_id (nanoid ρ idLength) newBook)
  | Update id body =>
      body !! "id" = None ∨ body !! "id" = Some (JStr id) →
      ids (stored ρ (Update id body) bs) = ids bs
  | Delete id => stored ρ (Delete id) bs `sublist_of` bs
  end ∧
  (id_untouched ρ r bs → unique_ids bs → unique_ids (stored ρ r bs)).
Proof.
  destruct r as [|id|body|id body|id]; simpl.
  - done.
  - unfold stored. by rewrite serve_Get.
  - unfold stored. rewrite serve_Create. simpl. split.
    + eexists. split; [done |]. intros Hbody. unfold has_id.
      rewrite lookup_union_r by done. apply lookup_singleton_eq.
    + intros [Hbody Hfresh] Huniq. unfold unique_ids, ids in *.
      rewrite fmap_app. apply NoDup_app.
      split; [done |]. split; [| apply NoDup_singleton].
      intros x Hx ->%list_elem_of_singleton. apply Hfresh.
      rewrite lookup_union_r, lookup_singleton_eq in Hx by done. exact Hx.
  - split; [apply update_keeps_ids |].
    intros Hbody Huniq. unfold unique_ids. by rewrite update_keeps_ids.
  - unfold stored. rewrite serve_Delete. simpl.
    split; [apply sublist_filter |].
    intros _ Huniq. unfold unique_ids, ids in *.
    eapply sublist_NoDup; [exact Huniq |].
    apply fmap_sublist, sublist_filter.
Qed.

Lemma id_invariant_preserved_witness :
  stored quiet List [dune; dune2] = [dune; dune2] ∧
  stored quiet (Get "a") [dune; dune2] = [dune; dune2] ∧
  ids (stored quiet (Update "a" {[ "author" := JStr "Frank Herbert" ]}) [dune; dune2; emma])
    = ids [dune; dune2; emma] ∧
  ids (stored quiet (Update "a" {[ "id" := JStr "a"; "title" := JStr "Dune II" ]}) [dune; emma])
    = ids [dune; emma] ∧
  stored quiet (Delete "a") [dune; dune2; emma] `sublist_of` [dune; dune2; emma] ∧
  (∃ newBook, stored quiet (Create {[ "title" := JStr "Persuasion" ]}) [dune; dune2]
                = [dune; dune2; newBook] ∧ has_id "V1StGXR8" newBook) ∧
  unique_ids (stored quiet (Update "a" {[ "author" := JStr "Frank Herbert" ]}) [dune; emma]) ∧
  unique_ids (stored quiet (Create {[ "title" := JStr "Persuasion" ]}) [dune; emma]) ∧
  unique_ids (stored quiet (Delete "a") [dune; emma]) ∧
  unique_ids (stored quiet (Get "a") [dune; emma]) ∧
  unique_ids (stored quiet List [dune; emma]).
Proof.
  assert (unique_ids [dune; emma]) as Huniq.
  { unfold unique_ids.
    change (ids [dune; emma]) with [Some (JStr "a"); Some (JStr "b")].
    apply NoDup_cons. split; [| apply NoDup_singleton].
    intros [=]%list_elem_of_singleton. }
  assert (Some (JStr "V1StGXR8") ∉ ids [dune; emma]) as Hfresh.
  { change (ids [dune; emma]) with [Some (JStr "a"); Some (JStr "b")].
    intros Hin. repeat (apply elem_of_cons in Hin as [[=]|Hin]).
    by apply elem_of_nil in Hin. }
  split; [exact (proj1 (id_invariant_preserved quiet List [dune; dune2])) |].
  split; [exact (proj1 (id_invariant_preserved quiet (Get "a") [dune; dune2])) |].
  split.
  { apply (proj1 (id_invariant_preserved quiet
             (Update "a" {[ "author" := JStr "Frank Herbert" ]}) [dune; dune2; emma])).
    left. reflexivity. }
  split.
  { apply (proj1 (id_invariant_preserved quiet
             (Update "a" {[ "id" := JStr "a"; "title" := JStr "Dune II" ]}) [dune; emma])).
    right. reflexivity. }
  split; [exact (proj1 (id_invariant_preserved quiet (Delete "a") [dune; dune2; emma])) |].
  split.
  { destruct (proj1 (id_invariant_preserved quiet
                (Create {[ "title" := JStr "Persuasion" ]}) [dune; dune2]))
      as (newBook & Hstored & Hid).
    exists newBook. split; [exact Hstored | apply Hid; reflexivity]. }
  split.
  { apply (proj2 (id_invariant_preserved quiet
             (Update "a" {[ "author" := JStr "Frank Herbert" ]}) [dune; emma]));
      [left; reflexivity | exact Huniq]. }
  split.
  { apply (proj2 (id_invariant_preserved quiet
             (Create {[ "title" := JStr "Persuasion" ]}) [dune; emma]));
      [split; [reflexivity | exact Hfresh] | exact Huniq]. }
  split.
  { apply (proj2 (id_invariant_preserved quiet (Delete "a") [dune; emma]));
      [exact I | exact Huniq]. }
  split.
  { apply (proj2 (id_invariant_preserved quiet (Get "a") [dune; emma]));
      [exact I | exact Huniq]. }
  apply (proj2 (id_invariant_preserved quiet List [dune; emma]));
    [exact I | exact Huniq].
Defined.

(** * Further properties of the handlers *)

(** ** More on [find] *)

Section find_facts.
Implicit Types (p : object → bool) (l bs : collection) (o : object).

(** The record [find] yields does not depend on where the count starts. *)
Lemma find_from_book p k k' l :
  snd <$> Lodash.find_from p k l = snd <$> Lodash.find_from p k' l.
Proof.
  revert k k'. induction l as [|x l IH]; intros k k'; simpl; [done |].
  destruct (p x); [done | apply IH].
Qed.

Lemma find_book_filter p (Q : object → Prop) `{!∀ o, Decision (Q o)} k l :
  (∀ o, p o = true → Q o) →
  snd <$> Lodash.find_from p k (filter Q l) = snd <$> Lodash.find_from p k l.
Proof.
  intros HpQ. revert k. induction l as [|x l IH]; intros k; [done |].
  rewrite filter_cons. destruct (decide (Q x)) as [HQ|HQ]; simpl.
  - destruct (p x); [done | apply IH].
  - destruct (p x) eqn:Hp; [by apply HpQ in Hp |].
    rewrite IH. apply find_from_book.
Qed.

Lemma find_from_insert p k l i x x' :
  l !! i = Some x → p x = false → p x' = false →
  Lodash.find_from p k (<[i := x']> l) = Lodash.find_from p k l.
Proof.
  revert k i. induction l as [|y l IH]; intros k i Hi Hx Hx'; [done |].
  destruct i as [|i]; simpl in *.
  - injection Hi as ->. by rewrite Hx, Hx'.
  - destruct (p y); [done | by apply IH].
Qed.

Lemma find_from_app_hit p k l l' :
  Lodash.find_from p k l ≠ None →
  Lodash.find_from p k (l ++ l') = Lodash.find_from p k l.
Proof.
  revert k. induction l as [|x l IH]; intros k Hhit; simpl in *; [done |].
  destruct (p x); [done | by apply IH].
Qed.

Lemma find_from_app_miss p k l l' :
  Lodash.find_from p k l = None →
  Lodash.find_from p k (l ++ l') = Lodash.find_from p (k + length l) l'.
Proof.
  revert k. induction l as [|x l IH]; intros k Hmiss; simpl in *.
  - f_equal. lia.
  - destruct (p x); [done |]. rewrite IH by done. f_equal. lia.
Qed.

(** What Get answers is decided by the record [find] yields. *)
Lemma get_response ρ id bs :
  response ρ (Get id) bs =
    match snd <$> Lodash.find (Lodash.matches id) bs with
    | Some book => [Send (Value (Obj book)) (Obj book)]
    | None => [SendStatus 404; Send (Value undefined) undefined]
    end.
Proof.
  unfold response. rewrite serve_Get. simpl.
  by destruct (Lodash.find _ bs) as [[i book]|].
Qed.

Lemma stored_Update ρ id body bs :
  stored ρ (Update id body) bs =
    match Lodash.find (Lodash.matches id) bs with
    | Some (i, book) => <[i := Lodash.assign book body]> bs
    | None => bs
    end.
Proof.
  unfold stored. rewrite serve_Update. simpl.
  by destruct (Lodash.find _ bs) as [[i book]|].
Qed.

Lemma stored_Delete ρ id bs :
  stored ρ (Delete id) bs = filter (λ o, ¬ has_id id o) bs.
Proof. unfold stored. by rewrite serve_Delete. Qed.

Lemma stored_Create ρ body bs :
  stored ρ (Create body) bs = bs ++ [body ∪ {[ "id" := JStr (nanoid ρ idLength) ]}].
Proof. unfold stored. by rewrite serve_Create. Qed.

(** A merge that leaves the id alone keeps the record the first match. *)
Lemma find_after_assign id body bs i book :
  Lodash.find (Lodash.matches id) bs = Some (i, book) →
  has_id id (Lodash.assign book body) →
  Lodash.find (Lodash.matches id) (<[i := Lodash.assign book body]> bs)
    = Some (i, Lodash.assign book body).
Proof.
  intros (j & -> & Hj & Hp & Hfirst)%find_from_hit Hkept. simpl in *.
  apply find_first; [| done |].
  - apply list_lookup_insert_eq. by eapply lookup_lt_Some.
  - intros j' o' Hlt Ho'. rewrite list_lookup_insert_ne in Ho' by lia.
    apply matches_false. eauto.
Qed.

Lemma assign_keeps_id id body book :
  has_id id book →
  body !! "id" = None ∨ body !! "id" = Some (JStr id) →
  has_id id (Lodash.assign book body).
Proof.
  unfold has_id, Lodash.assign. intros Hbook [Hnone|Hsame].
  - by rewrite lookup_union_r.
  - by apply lookup_union_Some_l.
Qed.
End find_facts.

(** ** Get by id on a hit *)

(** X1: Get on an id that some record has sends one response, the first
    record with that id, and leaves the collection as it was. *)
Theorem get_hit_sends_first_match ρ id bs i book :
  bs !! i = Some book →
  has_id id book →
  (∀ j o, j < i → bs !! j = Some o → ¬ has_id id o) →
  serve ρ (Get id) bs = (bs, [Send (Value (Obj book)) (Obj book)]).
Proof.
  intros Hi Hid Hfirst. rewrite serve_Get.
  by rewrite (find_first id bs i book).
Qed.

Lemma get_hit_sends_first_match_witness :
  serve quiet (Get "a") [emma; dune; dune2] =
    ([emma; dune; dune2], [Send (Value (Obj dune)) (Obj dune)]).
Proof.
  apply (get_hit_sends_first_match quiet "a" [emma; dune; dune2] 1 dune).
  - reflexivity.
  - reflexivity.
  - intros [|j] o Hj Ho; [| lia]. injection Ho as <-. by vm_compute.
Defined.

(** ** Requests one after the other *)

(** X2: a Create whose body has no id field, with a token that no record
    has yet, stores a record that a following Get by the token answers
    with, in one response. *)
Theorem create_then_get ρ ρ' body bs :
  body !! "id" = None →
  (∀ o, o ∈ bs → ¬ has_id (nanoid ρ idLength) o) →
  ∃ newBook,
    stored ρ (Create body) bs = bs ++ [newBook] ∧
    has_id (nanoid ρ idLength) newBook ∧
    response ρ' (Get (nanoid ρ idLength)) (stored ρ (Create body) bs)
      = [Send (Value (Obj newBook)) (Obj newBook)].
Proof.
  intros Hbody Hfresh%find_miss. rewrite stored_Create. eexists. split; [done |].
  assert (has_id (nanoid ρ idLength) (body ∪ {[ "id" := JStr (nanoid ρ idLength) ]}))
    as Hid by (unfold has_id; rewrite lookup_union_r by done; apply lookup_singleton_eq).
  split; [done |]. rewrite get_response. unfold Lodash.find.
  rewrite find_from_app_miss by done. simpl.
  apply matches_has_id in Hid. by rewrite Hid.
Qed.

Lemma create_then_get_witness :
  ∃ newBook,
    stored quiet (Create {[ "title" := JStr "Persuasion" ]}) [dune; emma]
      = [dune; emma; newBook] ∧
    response quiet (Get "V1StGXR8")
        (stored quiet (Create {[ "title" := JStr "Persuasion" ]}) [dune; emma])
      = [Send (Value (Obj newBook)) (Obj newBook)].
Proof.
  destruct (create_then_get quiet quiet {[ "title" := JStr "Persuasion" ]} [dune; emma])
    as (newBook & Hstored & _ & Hget).
  - reflexivity.
  - intros o Ho. each_book Ho.
  - exists newBook. split; [exact Hstored | exact Hget].
Defined.

(** X3: after a Delete, no record with that id is left and a Get by that
    id takes the 404 path, whatever the collection held and whether or
    not the adapter's write threw. *)
Theorem delete_then_get ρ ρ' id bs :
  (∀ o, o ∈ stored ρ (Delete id) bs → ¬ has_id id o) ∧
  response ρ' (Get id) (stored ρ (Delete id) bs)
    = [SendStatus 404; Send (Value undefined) undefined].
Proof.
  assert (∀ o, o ∈ stored ρ (Delete id) bs → ¬ has_id id o) as Hgone.
  { intros o. rewrite stored_Delete. by intros [? _]%list_elem_of_filter. }
  split; [done | by apply get_miss].
Qed.

(** X4: a second Delete of the same id changes nothing more. *)
Theorem delete_idempotent ρ ρ' id bs :
  stored ρ' (Delete id) (stored ρ (Delete id) bs) = stored ρ (Delete id) bs.
Proof.
  rewrite (stored_Delete ρ'). apply filter_none.
  intros o. rewrite stored_Delete. by intros [? _]%list_elem_of_filter.
Qed.

(** X5: two Deletes leave the same collection in either order. *)
Theorem delete_commutes ρ1 ρ2 ρ3 ρ4 id id' bs :
  stored ρ1 (Delete id) (stored ρ2 (Delete id') bs)
    = stored ρ3 (Delete id') (stored ρ4 (Delete id) bs).
Proof.
  rewrite !stored_Delete, !list_filter_filter.
  apply list_filter_iff. tauto.
Qed.

(** X6: an Update whose body has no id field, or the path id as its id,
    changes nothing more when it is repeated. *)
Theorem update_idempotent ρ ρ' id body bs :
  body !! "id" = None ∨ body !! "id" = Some (JStr id) →
  stored ρ' (Update id body) (stored ρ (Update id body) bs)
    = stored ρ (Update id body) bs.
Proof.
  intros Hbody. rewrite (stored_Update ρ).
  destruct (Lodash.find _ bs) as [[i book]|] eqn:Hfind.
  - rewrite stored_Update.
    rewrite (find_after_assign id body bs i book Hfind)
      by (apply assign_keeps_id; [by apply find_inv in Hfind as [_ ?] | done]).
    rewrite list_insert_insert_eq. unfold Lodash.assign.
    by rewrite (assoc_L (∪)), (idemp_L (∪)).
  - by rewrite stored_Update, Hfind.
Qed.

Lemma update_idempotent_witness :
  stored quiet (Update "a" {[ "author" := JStr "Frank Herbert" ]})
    (stored quiet (Update "a" {[ "author" := JStr "Frank Herbert" ]}) [dune; emma])
  = stored quiet (Update "a" {[ "author" := JStr "Frank Herbert" ]}) [dune; emma].
Proof.
  apply (update_idempotent quiet quiet "a" {[ "author" := JStr "Frank Herbert" ]}
           [dune; emma]).
  left. reflexivity.
Defined.

(** X7: after an Update on an existing id whose body has no id field, or
    the path id as its id, a Get by that id answers with the merged
    record. *)
Theorem update_then_get ρ ρ' id body bs i book :
  bs !! i = Some book →
  has_id id book →
  (∀ j o, j < i → bs !! j = Some o → ¬ has_id id o) →
  body !! "id" = None ∨ body !! "id" = Some (JStr id) →
  response ρ' (Get id) (stored ρ (Update id body) bs)
    = [Send (Value (Obj (Lodash.assign book body))) (Obj (Lodash.assign book body))].
Proof.
  intros Hi Hid Hfirst Hbody.
  pose proof (find_first id bs i book Hi Hid Hfirst) as Hfind.
  rewrite stored_Update, Hfind, get_response.
  by rewrite (find_after_assign id body bs i book Hfind)
    by (by apply assign_keeps_id).
Qed.

Lemma update_then_get_witness :
  response quiet (Get "a")
      (stored quiet (Update "a" {[ "author" := JStr "Frank Herbert" ]}) [emma; dune])
    = [Send (Value (Obj (Lodash.assign dune {[ "author" := JStr "Frank Herbert" ]})))
            (Obj (Lodash.assign dune {[ "author" := JStr "Frank Herbert" ]}))].
Proof.
  apply (update_then_get quiet quiet "a" {[ "author" := JStr "Frank Herbert" ]}
           [emma; dune] 1 dune).
  - reflexivity.
  - reflexivity.
  - intros [|j] o Hj Ho; [| lia]. injection Ho as <-. by vm_compute.
  - left. reflexivity.
Defined.

(** X8: when the adapter's write does not throw, an Update on an existing
    id whose body has no id field, or the path id as its id, answers with
    one send whose body is the merged record. *)
Theorem update_answers_merged_record ρ id body bs i book :
  bs !! i = Some book →
  has_id id book →
  (∀ j o, j < i → bs !! j = Some o → ¬ has_id id o) →
  body !! "id" = None ∨ body !! "id" = Some (JStr id) →
  adapter_write ρ (stored ρ (Update id body) bs) = None →
  response ρ (Update id body) bs
    = [Send (Wrapper (books_find id)) (Obj (Lodash.assign book body))].
Proof.
  intros Hi Hid Hfirst Hbody Hwrite.
  pose proof (find_first id bs i book Hi Hid Hfirst) as Hfind.
  rewrite stored_Update, Hfind in Hwrite.
  apply (update_response_when_id_kept ρ id body bs i book);
    [done | by apply assign_keeps_id | done].
Qed.

Lemma update_answers_merged_record_witness :
  response quiet (Update "a" {[ "author" := JStr "Frank Herbert" ]}) [emma; dune]
    = [Send (Wrapper (books_find "a"))
            (Obj (Lodash.assign dune {[ "author" := JStr "Frank Herbert" ]}))].
Proof.
  apply (update_answers_merged_record quiet "a" {[ "author" := JStr "Frank Herbert" ]}
           [emma; dune] 1 dune).
  - reflexivity.
  - reflexivity.
  - intros [|j] o Hj Ho; [| lia]. injection Ho as <-. by vm_compute.
  - left. reflexivity.
  - reflexivity.
Defined.

(** X9: a Create whose body has no id field, with a token that no record
    has yet, is undone by a Delete of the token. *)
Theorem create_then_delete ρ ρ' body bs :
  body !! "id" = None →
  (∀ o, o ∈ bs → ¬ has_id (nanoid ρ idLength) o) →
  stored ρ' (Delete (nanoid ρ idLength)) (stored ρ (Create body) bs) = bs.
Proof.
  intros Hbody Hfresh. rewrite stored_Delete, stored_Create, filter_app.
  rewrite filter_none by done. rewrite filter_cons_False, filter_nil.
  - apply app_nil_r.
  - intros Hnot. apply Hnot. unfold has_id.
    rewrite lookup_union_r by done. apply lookup_singleton_eq.
Qed.

Lemma create_then_delete_witness :
  stored quiet (Delete "V1StGXR8")
    (stored quiet (Create {[ "title" := JStr "Persuasion" ]}) [dune; emma])
  = [dune; emma].
Proof.
  apply (create_then_delete quiet quiet {[ "title" := JStr "Persuasion" ]} [dune; emma]).
  - reflexivity.
  - intros o Ho. each_book Ho.
Defined.

(** ** The catch branches *)

(** X10: when the adapter's write throws on a Create, Update or Delete,
    the handler answers [status(500)] and sends the exception, and the
    collection in memory has changed as if the write had gone through. *)
Theorem write_throws_after_mutation ρ r bs e :
  is_write r = true →
  adapter_write ρ (stored ρ r bs) = Some e →
  response ρ r bs = [Status 500; Send (Value (Err e)) (Err e)] ∧
  stored ρ r bs = stored (Env (nanoid ρ) (λ _, None)) r bs.
Proof.
  intros Hwrite. unfold stored, response.
  destruct r as [| |body|id body|id]; try discriminate.
  - rewrite !serve_Create. simpl. by intros ->.
  - rewrite !serve_Update. simpl. by intros ->.
  - rewrite !serve_Delete. simpl. by intros ->.
Qed.

Lemma write_throws_after_mutation_witness :
  response broken (Delete "a") [dune; emma] = [Status 500; Send (Value (Err "EACCES")) (Err "EACCES")] ∧
  stored broken (Delete "a") [dune; emma] = [emma].
Proof.
  destruct (write_throws_after_mutation broken (Delete "a") [dune; emma] "EACCES")
    as [Hres Hstored].
  - reflexivity.
  - reflexivity.
  - split; [exact Hres |]. rewrite Hstored. by vm_compute.
Defined.

(** X11: every request ends its response once, by [send] or
    [sendStatus], except a Get by an id that no record has, which ends
    it twice. *)
Theorem one_response_except_get_miss ρ r bs :
  (terminal (response ρ r bs) = 1 ∨ terminal (response ρ r bs) = 2) ∧
  (terminal (response ρ r bs) = 2 ↔
     ∃ id, r = Get id ∧ ∀ o, o ∈ bs → ¬ has_id id o).
Proof.
  unfold response. destruct r as [|id|body|id body|id].
  - rewrite serve_List. simpl. split; [by left |].
    split; [discriminate | by intros (? & [=] & _)].
  - rewrite serve_Get. simpl.
    destruct (Lodash.find _ bs) as [[i book]|] eqn:Hfind; simpl.
    + split; [by left |]. split; [discriminate |].
      intros (? & [= <-] & Hmiss%find_miss). congruence.
    + split; [by right |]. split; [| done].
      intros _. exists id. split; [done | by apply find_miss].
  - rewrite serve_Create. simpl. destruct (adapter_write ρ _); simpl;
      (split; [by left |]; split; [discriminate | by intros (? & [=] & _)]).
  - rewrite serve_Update. simpl. destruct (adapter_write ρ _); simpl;
      (split; [by left |]; split; [discriminate | by intros (? & [=] & _)]).
  - rewrite serve_Delete. simpl. destruct (adapter_write ρ _); simpl;
      (split; [by left |]; split; [discriminate | by intros (? & [=] & _)]).
Qed.

(** ** What Create and Update write *)

(** X12: when the adapter's write does not throw, Create appends one
    record and sends that same record. Every field of the body other
    than id is in it as submitted, and it has no further field; its id is
    the body's id when the body has one and the token otherwise. *)
Theorem create_stores_what_it_sends ρ body bs :
  adapter_write ρ (stored ρ (Create body) bs) = None →
  ∃ newBook,
    serve ρ (Create body) bs
      = (bs ++ [newBook], [Send (Value (Obj newBook)) (Obj newBook)]) ∧
    (∀ k, k ≠ "id" → newBook !! k = body !! k) ∧
    newBook !! "id" = Some (default (JStr (nanoid ρ idLength)) (body !! "id")).
Proof.
  rewrite stored_Create. intros Hwrite. rewrite serve_Create. simpl.
  rewrite Hwrite. eexists. split; [done |]. split.
  - intros k Hk. rewrite lookup_union, lookup_singleton_ne by done.
    by destruct (body !! k).
  - rewrite lookup_union, lookup_singleton_eq. by destruct (body !! "id").
Qed.

Lemma create_stores_what_it_sends_witness :
  ∃ newBook,
    serve quiet (Create {[ "title" := JStr "Persuasion" ]}) [dune]
      = ([dune; newBook], [Send (Value (Obj newBook)) (Obj newBook)]) ∧
    newBook !! "title" = Some (JStr "Persuasion") ∧
    newBook !! "author" = None ∧
    newBook !! "id" = Some (JStr "V1StGXR8").
Proof.
  destruct (create_stores_what_it_sends quiet {[ "title" := JStr "Persuasion" ]} [dune])
    as (newBook & Hserve & Hfields & Hid); [reflexivity |].
  exists newBook. split; [exact Hserve |].
  split; [by rewrite Hfields |]. split; [by rewrite Hfields | exact Hid].
Defined.

(** X13: Update never adds or removes a record: List returns as many
    books after it as before, whatever the id and the body. *)
Theorem update_keeps_count ρ ρ' id body bs :
  listed ρ' (stored ρ (Update id body) bs) = listed ρ' bs.
Proof.
  rewrite !listed_length, stored_Update.
  destruct (Lodash.find _ bs) as [[i book]|]; [| done].
  by rewrite length_insert.
Qed.

(** X14: an Update with an empty body leaves the collection as it was. *)
Theorem update_empty_body ρ id bs :
  stored ρ (Update id ∅) bs = bs.
Proof.
  rewrite stored_Update.
  destruct (Lodash.find _ bs) as [[i book]|] eqn:Hfind; [| done].
  apply find_inv in Hfind as [Hi _]. apply list_insert_id.
  unfold Lodash.assign. by rewrite (left_id_L ∅ (∪)).
Qed.

(** ** What a request leaves alone *)

(** X15: a Delete does not change what Get answers for another id. *)
Theorem delete_keeps_other_ids ρ ρ' id id' bs :
  id ≠ id' →
  response ρ' (Get id') (stored ρ (Delete id) bs) = response ρ' (Get id') bs.
Proof.
  intros Hne. rewrite !get_response, stored_Delete. unfold Lodash.find.
  rewrite find_book_filter; [done |].
  intros o Ho%matches_has_id Hid. unfold has_id in *. congruence.
Qed.

Lemma delete_keeps_other_ids_witness :
  response quiet (Get "b") (stored quiet (Delete "a") [dune; emma; dune2])
    = response quiet (Get "b") [dune; emma; dune2].
Proof.
  apply (delete_keeps_other_ids quiet quiet "a" "b" [dune; emma; dune2]).
  discriminate.
Defined.

(** X16: an Update does not change what Get answers for another id,
    unless its body sets the id to that other id. *)
Theorem update_keeps_other_ids ρ ρ' id id' body bs :
  id ≠ id' →
  body !! "id" ≠ Some (JStr id') →
  response ρ' (Get id') (stored ρ (Update id body) bs) = response ρ' (Get id') bs.
Proof.
  intros Hne Hbody. rewrite !get_response, stored_Update.
  destruct (Lodash.find _ bs) as [[i book]|] eqn:Hfind; [| done].
  apply find_inv in Hfind as [Hi Hid]. unfold Lodash.find.
  rewrite (find_from_insert _ _ bs i book); [done | done | |].
  - apply matches_false. unfold has_id in *. congruence.
  - apply matches_false. unfold has_id, Lodash.assign in *.
    destruct (body !! "id") as [v|] eqn:Hb.
    + rewrite (lookup_union_Some_l body book "id" v Hb). congruence.
    + rewrite lookup_union_r by done. congruence.
Qed.

Lemma update_keeps_other_ids_witness :
  response quiet (Get "b")
      (stored quiet (Update "a" {[ "author" := JStr "Frank Herbert" ]}) [dune; emma])
    = response quiet (Get "b") [dune; emma].
Proof.
  apply (update_keeps_other_ids quiet quiet "a" "b"
           {[ "author" := JStr "Frank Herbert" ]} [dune; emma]).
  - discriminate.
  - discriminate.
Defined.

(** X17: a Create does not change what Get answers for an id that a
    record already has, even when the body carries that same id: the
    older record stays the one Get finds. *)
Theorem create_keeps_existing_ids ρ ρ' body id' bs :
  (∃ o, o ∈ bs ∧ has_id id' o) →
  response ρ' (Get id') (stored ρ (Create body) bs) = response ρ' (Get id') bs.
Proof.
  intros (o & Ho & Hid). rewrite !get_response, stored_Create. unfold Lodash.find.
  rewrite find_from_app_hit; [done |].
  intros Hmiss. apply (proj1 (find_miss id' bs) Hmiss o Ho Hid).
Qed.

Lemma create_keeps_existing_ids_witness :
  response quiet (Get "a") (stored quiet (Create dune2) [dune; emma])
    = [Send (Value (Obj dune)) (Obj dune)].
Proof.
  rewrite (create_keeps_existing_ids quiet quiet dune2 "a" [dune; emma]).
  - reflexivity.
  - exists dune. split; [by left | reflexivity].
Defined.

(** ** Invariants of a session *)

Lemma step_keeps_id_field ρ r bs :
  Forall (λ o : object, is_Some (o !! "id")) bs →
  Forall (λ o : object, is_Some (o !! "id")) (stored ρ r bs).
Proof.
  intros Hall. destruct r as [|id|body|id body|id].
  - done.
  - unfold stored. by rewrite serve_Get.
  - rewrite stored_Create. apply Forall_app. split; [done |].
    apply Forall_singleton. rewrite lookup_union, lookup_singleton_eq.
    by destruct (body !! "id").
  - rewrite stored_Update.
    destruct (Lodash.find _ bs) as [[i book]|] eqn:Hfind; [| done].
    apply Forall_insert; [done |]. apply find_inv in Hfind as [_ Hid].
    unfold Lodash.assign. rewrite lookup_union, Hid.
    by destruct (body !! "id").
  - rewrite stored_Delete. rewrite Forall_forall in *.
    intros o [_ Ho]%list_elem_of_filter. by apply Hall.
Qed.

(** X18: when every record has an id field, every record still has one
    after any run of requests: Create always sets it and no request
    takes a field away. *)
Theorem session_keeps_id_field rs bs :
  Forall (λ o : object, is_Some (o !! "id")) bs →
  Forall (λ o : object, is_Some (o !! "id")) (session rs bs).
Proof.
  unfold session. revert bs. induction rs as [|[ρ r] rs IH]; intros bs Hall; [done |].
  simpl. apply IH. by apply step_keeps_id_field.
Qed.

Lemma session_keeps_id_field_witness :
  Forall (λ o : object, is_Some (o !! "id"))
    (session [(quiet, Create {[ "title" := JStr "Dune" ]});
              (broken, Update "V1StGXR8" {[ "author" := JStr "Herbert" ]});
              (quiet, Create {[ "id" := JNull ]})] []).
Proof.
  apply session_keeps_id_field. constructor.
Defined.

Lemma step_keeps_unreachable ρ r bs o :
  (∀ s, ¬ has_id s o) → o ∈ bs → o ∈ stored ρ r bs.
Proof.
  intros Hnone Ho. destruct r as [|id|body|id body|id].
  - done.
  - unfold stored. by rewrite serve_Get.
  - rewrite stored_Create. apply elem_of_app. by left.
  - rewrite stored_Update.
    destruct (Lodash.find _ bs) as [[i book]|] eqn:Hfind; [| done].
    apply find_inv in Hfind as [Hi Hid].
    apply list_elem_of_lookup in Ho as [j Hj].
    apply list_elem_of_lookup. exists j. rewrite list_lookup_insert_ne; [done |].
    intros <-. rewrite Hi in Hj. injection Hj as ->. by apply (Hnone id).
  - rewrite stored_Delete. apply list_elem_of_filter. split; [apply Hnone | done].
Qed.

(** X19: a record whose id is not a string (a number, null, an object,
    or no id at all) is out of reach of the path id: no run of requests
    removes or changes it. *)
Theorem non_string_id_is_out_of_reach rs bs o :
  (∀ s, ¬ has_id s o) → o ∈ bs → o ∈ session rs bs.
Proof.
  intros Hnone. unfold session. revert bs.
  induction rs as [|[ρ r] rs IH]; intros bs Ho; [done |].
  simpl. apply IH. by apply step_keeps_unreachable.
Qed.

Lemma non_string_id_is_out_of_reach_witness :
  numbered ∈ session [(quiet, Delete "7"); (quiet, Update "7" {[ "title" := JStr "x" ]})]
               [dune; numbered].
Proof.
  apply non_string_id_is_out_of_reach.
  - intros s. by vm_compute.
  - right. left.
Defined.
